(** * ts-curry-utility: the [curry] transformer of [src/index.ts]

    A shallow embedding of the run-time behaviour of

<<
    function curry(fn) {
      const arity = fn.length;
      function curried(...args) {
        if (args.length >= arity) { return fn(...args); }
        else { return (...nextArgs) => curried(...args.concat(nextArgs)); }
      }
      return curried;
    }
>>

    The two function values the code creates, [curried] itself and the
    arrow function that captures [args], are closure-converted: a
    [Closure] records the variables of the enclosing [curry] call ([fn],
    [arity]) together with which of the two bodies it runs.  A source
    function is an arbitrary effectful callable: it may change its own
    state, throw, or fail to return. *)

From Stdlib Require Import String DecimalString.
From Stdlib Require Import ZArith Bool Arith Lia List.
Import ListNotations.

Set Implicit Arguments.

Local Open Scope list_scope.

(** ** Values *)

(** The first-order JavaScript values arguments and results range over.
    Numbers are the integer-valued ones ([VNum]) and [NaN]; a string is
    held as the bytes of its UTF-8 encoding; function values are not part
    of this universe, they are the [SourceFn] and [Closure] below. *)
Inductive Value : Type :=
| VUndefined
| VNull
| VBool (b : bool)
| VNum (n : Z)
| VNaN
| VStr (s : string).

(** The UTF-16 code units a byte of a UTF-8 encoding stands for: one for
    a one-byte character and for the first byte of a two- or three-byte
    character (a code point below 65536), two for the first byte of a
    four-byte character (a surrogate pair), none for a continuation
    byte. *)
Definition utf16_units (b : Ascii.ascii) : nat :=
  let n := Ascii.nat_of_ascii b in
  if n <? 128 then 1
  else if n <? 192 then 0
  else if n <? 240 then 1
  else 2.

(** The [length] of a string: its number of UTF-16 code units. *)
Fixpoint utf16_length (s : string) : nat :=
  match s with
  | EmptyString => 0
  | String b s' => utf16_units b + utf16_length s'
  end.

(** What a [throw] carries: the engine's [TypeError], or a value thrown by
    the source function. *)
Inductive Error : Type :=
| TypeError
| Thrown (v : Value).

(** How an evaluation ends.  [W] is the state it runs on. *)
Inductive Outcome (A W : Type) : Type :=
| Normal (a : A) (w : W)
| Abrupt (e : Error) (w : W)
| Diverge.

Arguments Normal {A W} a w.
Arguments Abrupt {A W} e w.
Arguments Diverge {A W}.

(** ** Source functions and the state of a run *)

Section Transformer.

(** The state the source function itself reads and writes. *)
Variable S : Type.

(** A callable: [fn_length] is its [length] property (the declared
    parameter count), [fn_call] what a call [fn(...args)] does with the
    whole argument list it receives. *)
Record SourceFn : Type := {
  fn_length : nat;
  fn_call : list Value -> S -> Outcome Value S
}.

(** The state of a run: the source function's own state and the record of
    the argument lists the source function has been called with, oldest
    first. *)
Record World : Type := {
  store : S;
  calls : list (list Value)
}.

(** Computations over [World] that may throw or fail to return. *)
Definition M (A : Type) : Type := World -> Outcome A World.

Definition ret {A : Type} (a : A) : M A := fun w => Normal a w.

Definition throw {A : Type} (e : Error) : M A := fun w => Abrupt e w.

Definition bind {A B : Type} (m : M A) (k : A -> M B) : M B :=
  fun w =>
    match m w with
    | Normal a w' => k a w'
    | Abrupt e w' => Abrupt e w'
    | Diverge => Diverge
    end.

Definition fmap {A B : Type} (f : A -> B) (m : M A) : M B :=
  bind m (fun a => ret (f a)).

(** One call of the source function with [args]: runs it on the store and
    records the call. *)
Definition call_source (f : SourceFn) (args : list Value) : M Value :=
  fun w =>
    let log := calls w ++ [args] in
    match fn_call f args (store w) with
    | Normal v s' => Normal v {| store := s'; calls := log |}
    | Abrupt e s' => Abrupt e {| store := s'; calls := log |}
    | Diverge => Diverge
    end.

(** ** The value handed to [curry] *)

(** [curry]'s parameter is typed [F extends Function]; at run time any
    value can arrive. *)
Inductive Callee : Type :=
| Callable (f : SourceFn)
| NotCallable (v : Value).

(** The value of [fn.length]: a parameter count or the length of a string
    in UTF-16 code units, or [undefined] where the property does not
    exist. *)
Inductive Arity : Type :=
| ANum (n : nat)
| AUndefined.

(** [fn.length].  Reading a property of [null] or [undefined] throws;
    booleans and numbers have no [length]; a string has its number of
    UTF-16 code units. *)
Definition get_length (fn : Callee) : Error + Arity :=
  match fn with
  | Callable f => inr (ANum (fn_length f))
  | NotCallable VUndefined => inl TypeError
  | NotCallable VNull => inl TypeError
  | NotCallable (VStr s) => inr (ANum (utf16_length s))
  | NotCallable (VBool _) => inr AUndefined
  | NotCallable (VNum _) => inr AUndefined
  | NotCallable VNaN => inr AUndefined
  end.

(** [null] and [undefined], the values without properties. *)
Definition is_nullish (v : Value) : bool :=
  match v with
  | VUndefined | VNull => true
  | _ => false
  end.

(** [len >= arity] for an array length [len]: comparing with [undefined]
    (which converts to [NaN]) is false. *)
Definition length_ge (len : nat) (arity : Arity) : bool :=
  match arity with
  | ANum n => Nat.leb n len
  | AUndefined => false
  end.

(** ** Closures and stages *)

(** Which function body a closure runs: [curried] itself, or the arrow
    function [(...nextArgs) => curried(...args.concat(nextArgs))] with its
    captured [args]. *)
Inductive Code : Type :=
| CurriedFn
| ArrowFn (args : list Value).

(** A function value created by one call of [curry]: the variables [fn]
    and [arity] of that call, and the body. *)
Record Closure : Type := {
  cl_fn : Callee;
  cl_arity : Arity;
  cl_code : Code
}.

(** What a stage invocation returns ([any] in the source): a value, or
    the next stage. *)
Inductive Result : Type :=
| Done (v : Value)
| Next (c : Closure).

(** [fn(...args)]: calling what is not a function throws. *)
Definition call (fn : Callee) (args : list Value) : M Result :=
  match fn with
  | Callable f => fmap Done (call_source f args)
  | NotCallable _ => throw TypeError
  end.

(** [curried(...args)] in the scope of [fn] and [arity]. *)
Definition curried (fn : Callee) (arity : Arity) (args : list Value) : M Result :=
  if length_ge (length args) arity
  then call fn args
  else ret (Next {| cl_fn := fn; cl_arity := arity; cl_code := ArrowFn args |}).

(** Invoking a closure with the arguments [xs].  [args.concat(nextArgs)]
    builds a new array: the captured one is left as it was. *)
Definition apply (c : Closure) (xs : list Value) : M Result :=
  match cl_code c with
  | CurriedFn => curried (cl_fn c) (cl_arity c) xs
  | ArrowFn args => curried (cl_fn c) (cl_arity c) (args ++ xs)
  end.

(** [curry(fn)]: reads [fn.length] and returns [curried]. *)
Definition curry (fn : Callee) : Error + Closure :=
  match get_length fn with
  | inr arity => inr {| cl_fn := fn; cl_arity := arity; cl_code := CurriedFn |}
  | inl e => inl e
  end.

(** ** Chains of invocations *)

(** Calling a result: a stage is invoked, a value of this universe is not
    callable. *)
Definition apply_result (r : Result) (xs : list Value) : M Result :=
  match r with
  | Next c => apply c xs
  | Done _ => throw TypeError
  end.

(** [r(g1)(g2)...(gk)]: the batches are supplied to successive results. *)
Fixpoint chain (r : Result) (groups : list (list Value)) : M Result :=
  match groups with
  | [] => ret r
  | g :: gs => bind (apply_result r g) (fun r' => chain r' gs)
  end.

(** [curry(fn)(g1)(g2)...(gk)]. *)
Definition curry_chain (fn : Callee) (groups : list (list Value)) : M Result :=
  match curry fn with
  | inr c => chain (Next c) groups
  | inl e => throw e
  end.

(** The same stage invoked twice, first with [xs], then with [ys]. *)
Definition apply_twice (c : Closure) (xs ys : list Value) : M (Result * Result) :=
  bind (apply c xs) (fun r1 =>
  bind (apply c ys) (fun r2 =>
  ret (r1, r2))).

(** The arguments a body has accumulated: none for [curried] itself. *)
Definition accumulated (code : Code) : list Value :=
  match code with
  | CurriedFn => []
  | ArrowFn args => args
  end.

(** The closures of the curried form of the source function [f]. *)
Definition stage (f : SourceFn) (code : Code) : Closure :=
  {| cl_fn := Callable f; cl_arity := ANum (fn_length f); cl_code := code |}.

(** The arrow function an invocation of [c] with [xs] creates when the
    arity is not reached: same [fn] and [arity], [args.concat(nextArgs)]
    captured. *)
Definition extend (c : Closure) (xs : list Value) : Closure :=
  {| cl_fn := cl_fn c;
     cl_arity := cl_arity c;
     cl_code := ArrowFn (accumulated (cl_code c) ++ xs) |}.

(** Whether an outcome is a return or a throw, and the state it leaves. *)
Definition final_world {A : Type} (o : Outcome A World) : option World :=
  match o with
  | Normal _ w => Some w
  | Abrupt _ w => Some w
  | Diverge => None
  end.

Definition terminates {A W : Type} (o : Outcome A W) : bool :=
  match o with
  | Diverge => false
  | _ => true
  end.

End Transformer.

Arguments ret {S A} a _.
Arguments throw {S A} e _.
Arguments final_world {S A} o.
Arguments NotCallable {S} v.
Arguments Done {S} v.

(** ** The functions of the example usage *)

Section Examples.

Variable S : Type.

(** [ToString] of a value. *)
Definition to_string (v : Value) : string :=
  match v with
  | VUndefined => "undefined"
  | VNull => "null"
  | VBool true => "true"
  | VBool false => "false"
  | VNum n => NilZero.string_of_int (Z.to_int n)
  | VNaN => "NaN"
  | VStr s => s
  end%string.

(** [ToNumber] of a value that is not a string; [None] is [NaN]. *)
Definition to_number (v : Value) : option Z :=
  match v with
  | VNull => Some 0%Z
  | VBool true => Some 1%Z
  | VBool false => Some 0%Z
  | VNum n => Some n
  | VUndefined | VNaN | VStr _ => None
  end.

(** [a + b]: string concatenation as soon as one operand is a string,
    numeric addition otherwise. *)
Definition js_add (a b : Value) : Value :=
  match a, b with
  | VStr _, _ | _, VStr _ => VStr (to_string a ++ to_string b)
  | _, _ =>
    match to_number a, to_number b with
    | Some x, Some y => VNum (x + y)
    | _, _ => VNaN
    end
  end.

(** [Number.isSafeInteger]: the integers on which the arithmetic of
    numbers is exact. *)
Definition safe_integer (n : Z) : bool :=
  (Z.abs n <=? 2 ^ 53 - 1)%Z.

(** The [i]-th parameter of a call: [undefined] when not supplied. *)
Definition param (i : nat) (args : list Value) : Value := nth i args VUndefined.

(** A function without effects: [n] declared parameters, [body] computes
    the returned value from the arguments. *)
Definition arrow (n : nat) (body : list Value -> Value) : SourceFn S :=
  {| fn_length := n; fn_call := fun args s => Normal (body args) s |}.

(** [(a, b, c) => a + b + c] *)
Definition addThreeNumbers : SourceFn S :=
  arrow 3 (fun args => js_add (js_add (param 0 args) (param 1 args)) (param 2 args)).

(** [(greeting, name) => `${greeting}, ${name}!`] *)
Definition greet : SourceFn S :=
  arrow 2 (fun args =>
    VStr (to_string (param 0 args) ++ ", " ++ to_string (param 1 args) ++ "!")).

(** [() => 42], the arity-0 function of the specification's scenario 4. *)
Definition const42 : SourceFn S :=
  arrow 0 (fun _ => VNum 42).

(** [function (a, b, c) { return arguments.length; }]: three declared
    parameters, returns how many arguments it received. *)
Definition countArguments : SourceFn S :=
  arrow 3 (fun args => VNum (Z.of_nat (length args))).

(** [function (a, b) { throw a; }]: a source function that fails. *)
Definition throwFirst : SourceFn S :=
  {| fn_length := 2; fn_call := fun args s => Abrupt (Thrown (param 0 args)) s |}.

End Examples.

(** An empty run over a source function without state. *)
Definition w0 : World unit := {| store := tt; calls := [] |}.

(** * Properties *)

Section Properties.

Variable S : Type.

Implicit Types (f : SourceFn S) (code : Code) (w : World S).
Implicit Types (args xs ys : list Value) (groups : list (list Value)).

(** ** The monad *)

Lemma bind_ret_r (A : Type) (m : M S A) w : bind m (fun a => ret a) w = m w.
Proof. unfold bind, ret. destruct (m w); reflexivity. Qed.

Lemma bind_fmap (A B C : Type) (g : A -> B) (m : M S A) (k : B -> M S C) w :
  bind (fmap g m) k w = bind m (fun a => k (g a)) w.
Proof. unfold fmap, bind, ret. destruct (m w); reflexivity. Qed.

(** ** One invocation *)

Lemma curry_callable f : curry (Callable f) = inr (stage f CurriedFn).
Proof. reflexivity. Qed.

Lemma apply_stage f code xs :
  apply (stage f code) xs
  = curried (Callable f) (ANum (fn_length f)) (accumulated code ++ xs).
Proof. destruct code; reflexivity. Qed.

Lemma curried_saturated f args :
  fn_length f <= length args ->
  curried (Callable f) (ANum (fn_length f)) args = fmap Done (call_source f args).
Proof.
  intros Hle. unfold curried, length_ge.
  apply Nat.leb_le in Hle. rewrite Hle. reflexivity.
Qed.

Lemma curried_unsaturated f args :
  length args < fn_length f ->
  curried (Callable f) (ANum (fn_length f)) args = ret (Next (stage f (ArrowFn args))).
Proof.
  intros Hlt. unfold curried, length_ge.
  apply Nat.leb_gt in Hlt. rewrite Hlt. reflexivity.
Qed.

Lemma apply_saturated f code xs w :
  fn_length f <= length (accumulated code ++ xs) ->
  apply (stage f code) xs w = fmap Done (call_source f (accumulated code ++ xs)) w.
Proof. intros Hle. rewrite apply_stage, curried_saturated; [reflexivity | exact Hle]. Qed.

Lemma apply_unsaturated f code xs w :
  length (accumulated code ++ xs) < fn_length f ->
  apply (stage f code) xs w = Normal (Next (stage f (ArrowFn (accumulated code ++ xs)))) w.
Proof. intros Hlt. rewrite apply_stage, curried_unsaturated; [reflexivity | exact Hlt]. Qed.

(** The outcome of a call of the source function, spelled out. *)
Lemma call_source_normal f args w v s' :
  fn_call f args (store w) = Normal v s' ->
  fmap (@Done S) (call_source f args) w
  = Normal (Done v) {| store := s'; calls := calls w ++ [args] |}.
Proof. intros E. unfold fmap, bind, call_source, ret. rewrite E. reflexivity. Qed.

Lemma call_source_abrupt f args w e s' :
  fn_call f args (store w) = Abrupt e s' ->
  fmap (@Done S) (call_source f args) w
  = Abrupt e {| store := s'; calls := calls w ++ [args] |}.
Proof. intros E. unfold fmap, bind, call_source, ret. rewrite E. reflexivity. Qed.

Lemma call_source_log f args w w' :
  final_world (fmap (@Done S) (call_source f args) w) = Some w' ->
  calls w' = calls w ++ [args].
Proof.
  unfold fmap, bind, call_source, ret.
  destruct (fn_call f args (store w)); simpl; intros E;
    try discriminate; injection E as <-; reflexivity.
Qed.

(** ** Chains *)

Lemma concat_nonempty groups :
  groups <> [] -> Forall (fun g => g <> []) groups -> 0 < length (concat groups).
Proof.
  intros Hne Hall. destruct groups as [|g gs]; [congruence|].
  inversion Hall as [|? ? Hg _]; subst. simpl. rewrite length_app.
  destruct g; [congruence | simpl; lia].
Qed.

(** Batches that together complete the arity, none of them empty: the
    source function is called at the last batch, with everything. *)
Lemma chain_saturates f groups : forall code w,
  groups <> [] ->
  Forall (fun g => g <> []) groups ->
  length (accumulated code ++ concat groups) = fn_length f ->
  chain (Next (stage f code)) groups w
  = fmap Done (call_source f (accumulated code ++ concat groups)) w.
Proof.
  induction groups as [|g gs IH]; intros code w Hne Hall Hlen; [congruence|].
  inversion Hall as [|? ? Hg Hgs]; subst. simpl chain. simpl concat in *.
  destruct gs as [|g' gs'].
  - simpl concat in *. rewrite app_nil_r in *.
    unfold bind. simpl apply_result. rewrite apply_saturated by lia.
    exact (bind_ret_r (fmap (@Done S) (call_source f (accumulated code ++ g))) w).
  - assert (Hpos : 0 < length (concat (g' :: gs'))) by (apply concat_nonempty; [congruence | assumption]).
    unfold bind. simpl apply_result.
    rewrite apply_unsaturated by (rewrite app_assoc, length_app in Hlen; lia).
    rewrite (IH (ArrowFn (accumulated code ++ g)) w); [ | congruence | assumption | ].
    + simpl accumulated. rewrite <- app_assoc. reflexivity.
    + simpl accumulated. rewrite <- app_assoc. exact Hlen.
Qed.

Lemma concat_singletons xs : concat (map (fun a => [a]) xs) = xs.
Proof. induction xs as [|a xs IH]; simpl; [reflexivity | rewrite IH; reflexivity]. Qed.

Lemma singletons_nonempty xs : Forall (fun g : list Value => g <> []) (map (fun a => [a]) xs).
Proof. induction xs; simpl; constructor; [discriminate | assumption]. Qed.

(** ** What is not callable *)



(** ** The claims *)

(** C1. For a source function [f] of arity [n] and arguments [a1 ... an],
    supplying the arguments one per invocation, [curry(f)(a1)(a2)...(an)],
    has the outcome of the direct call [f(a1, ..., an)]: the same returned
    value (or thrown error) and the same effect, one call of [f]. *)
Theorem curry_one_at_a_time f xs w :
  xs <> [] ->
  length xs = fn_length f ->
  curry_chain (Callable f) (map (fun a => [a]) xs) w = call (Callable f) xs w.
Proof.
  intros Hne Hlen. unfold curry_chain. rewrite curry_callable.
  rewrite chain_saturates.
  - simpl accumulated. rewrite concat_singletons. reflexivity.
  - destruct xs; [congruence | discriminate].
  - apply singletons_nonempty.
  - simpl accumulated. rewrite concat_singletons. exact Hlen.
Qed.

(** C2. For a source function [f] of arity [n] and any grouping of the
    arguments [a1 ... an] into consecutive non-empty batches, supplying
    the batches to successive stages of [curry(f)] has the outcome of the
    direct call [f(a1, ..., an)]. *)
Theorem curry_grouped f groups w :
  groups <> [] ->
  Forall (fun g => g <> []) groups ->
  length (concat groups) = fn_length f ->
  curry_chain (Callable f) groups w = call (Callable f) (concat groups) w.
Proof.
  intros Hne Hall Hlen. unfold curry_chain. rewrite curry_callable.
  rewrite chain_saturates by assumption. reflexivity.
Qed.

(** C3. When an invocation of a stage brings the accumulated sequence to
    strictly more values than the arity, the source function is called
    exactly once, with the whole accumulated sequence, which is longer
    than its first [arity] values: nothing is cut off. *)
Theorem extra_arguments_forwarded f code xs w :
  fn_length f < length (accumulated code ++ xs) ->
  apply (stage f code) xs w = call (Callable f) (accumulated code ++ xs) w
  /\ (forall w', final_world (apply (stage f code) xs w) = Some w' ->
                 calls w' = calls w ++ [accumulated code ++ xs])
  /\ accumulated code ++ xs <> firstn (fn_length f) (accumulated code ++ xs).
Proof.
  intros Hlt. rewrite apply_saturated by lia. repeat split.
  - intros w'. apply call_source_log.
  - intros E. apply (f_equal (@length Value)) in E.
    rewrite length_firstn in E. lia.
Qed.

(** C4, as the code has it.  When the new accumulated sequence has at
    least [arity] values, the source function is called once with the
    whole new accumulated sequence (its first [arity] values when it has
    exactly [arity] of them), and what the source function returns or
    throws is what the invocation returns or throws. *)
Theorem saturated_calls_source f code xs w :
  fn_length f <= length (accumulated code ++ xs) ->
  (forall v s', fn_call f (accumulated code ++ xs) (store w) = Normal v s' ->
     apply (stage f code) xs w
     = Normal (Done v) {| store := s'; calls := calls w ++ [accumulated code ++ xs] |})
  /\ (forall e s', fn_call f (accumulated code ++ xs) (store w) = Abrupt e s' ->
     apply (stage f code) xs w
     = Abrupt e {| store := s'; calls := calls w ++ [accumulated code ++ xs] |})
  /\ (length (accumulated code ++ xs) = fn_length f ->
      firstn (fn_length f) (accumulated code ++ xs) = accumulated code ++ xs).
Proof.
  intros Hle. repeat split.
  - intros v s' E. rewrite apply_saturated by exact Hle. apply call_source_normal, E.
  - intros e s' E. rewrite apply_saturated by exact Hle. apply call_source_abrupt, E.
  - intros E. apply firstn_all2. lia.
Qed.

(** C5. When the new accumulated sequence has fewer values than the
    arity, the invocation does not call the source function (the state of
    the run, call record included, is unchanged) and returns a new stage
    that closes over the combined sequence. *)
Theorem unsaturated_returns_stage f code xs w :
  length (accumulated code ++ xs) < fn_length f ->
  apply (stage f code) xs w
  = Normal (Next (stage f (ArrowFn (accumulated code ++ xs)))) w.
Proof. apply apply_unsaturated. Qed.


(** C7. For a source function of arity 0, invoking the root stage of its
    curried form with any arguments, none included, calls the source
    function at once and returns its result; [curry(() => 42)()] is 42. *)
Theorem arity_zero_calls_at_once f xs w :
  fn_length f = 0 ->
  curry_chain (Callable f) [xs] w = call (Callable f) xs w
  /\ curry_chain (Callable (const42 S)) [[]] w
     = Normal (Done (VNum 42)) {| store := store w; calls := calls w ++ [[]] |}.
Proof.
  intros H0. split; [|reflexivity].
  unfold curry_chain. rewrite curry_callable. simpl chain.
  unfold bind. simpl apply_result. rewrite apply_saturated by (rewrite H0; lia).
  exact (bind_ret_r (fmap (@Done S) (call_source f xs)) w).
Qed.

(** C8. Invoking one stage twice, with [xs] and then with [ys], gives two
    independent results: the first is what the source function produces
    for the stage's arguments followed by [xs], the second what it
    produces for the stage's arguments followed by [ys]; the source
    function is called with these two sequences and [xs] is not part of
    the second. *)
Theorem sibling_calls_independent f code xs ys w :
  fn_length f <= length (accumulated code ++ xs) ->
  fn_length f <= length (accumulated code ++ ys) ->
  apply_twice (stage f code) xs ys w
  = bind (call_source f (accumulated code ++ xs)) (fun v1 =>
    bind (call_source f (accumulated code ++ ys)) (fun v2 =>
    ret (Done v1, Done v2))) w
  /\ (forall r w', apply_twice (stage f code) xs ys w = Normal r w' ->
        calls w' = calls w ++ [accumulated code ++ xs; accumulated code ++ ys]).
Proof.
  intros Hx Hy.
  assert (E : apply_twice (stage f code) xs ys w
    = bind (call_source f (accumulated code ++ xs)) (fun v1 =>
      bind (call_source f (accumulated code ++ ys)) (fun v2 =>
      ret (@Done S v1, @Done S v2))) w).
  { unfold apply_twice, bind at 1. rewrite apply_saturated by exact Hx.
    unfold fmap, bind, ret.
    destruct (call_source f (accumulated code ++ xs) w) as [v1 w1| |]; try reflexivity.
    rewrite apply_saturated by exact Hy. unfold fmap, bind, ret.
    destruct (call_source f (accumulated code ++ ys) w1); reflexivity. }
  split; [exact E|].
  intros r w'. rewrite E. unfold bind, call_source, ret.
  destruct (fn_call f (accumulated code ++ xs) (store w)); simpl; try discriminate.
  destruct (fn_call f (accumulated code ++ ys) w1); simpl; try discriminate.
  intros H; injection H as _ <-. simpl. rewrite <- app_assoc. reflexivity.
Qed.

(** C9. A stage invocation terminates, provided the source function
    terminates on the accumulated arguments when the invocation calls
    it. *)
Theorem apply_terminates f code xs w :
  (fn_length f <= length (accumulated code ++ xs) ->
   terminates (fn_call f (accumulated code ++ xs) (store w)) = true) ->
  terminates (apply (stage f code) xs w) = true.
Proof.
  intros Hf. destruct (le_lt_dec (fn_length f) (length (accumulated code ++ xs))) as [Hle|Hlt].
  - rewrite apply_saturated by exact Hle. specialize (Hf Hle).
    unfold fmap, bind, call_source, ret.
    destruct (fn_call f (accumulated code ++ xs) (store w)); simpl in *; congruence.
  - rewrite apply_unsaturated by exact Hlt. reflexivity.
Qed.

(** C10. A stage with fewer accumulated arguments than the arity accepts
    an invocation with no arguments: it returns, without error and
    without calling the source function, a new stage that behaves as the
    invoked one on every later invocation. *)
Theorem apply_no_arguments f code w :
  length (accumulated code) < fn_length f ->
  exists c',
    apply (stage f code) [] w = Normal (Next c') w
    /\ forall ys w', apply c' ys w' = apply (stage f code) ys w'.
Proof.
  intros Hlt. exists (stage f (ArrowFn (accumulated code ++ []))). split.
  - apply apply_unsaturated. rewrite app_nil_r. exact Hlt.
  - intros ys w'. rewrite !apply_stage. simpl accumulated.
    rewrite app_nil_r. reflexivity.
Qed.

End Properties.

(** * The claims on the example functions *)

(** C4 as stated fails: [curry(addThreeNumbers)(1, 2, 3, 999)] calls the
    source function with all four values, not with the first three, and
    a source function that looks at its argument count returns 4 where a
    call with the first three values returns 3. *)
Lemma extra_arguments_not_truncated :
  let xs := [VNum 1; VNum 2; VNum 3; VNum 999] in
  final_world (apply (stage (addThreeNumbers unit) CurriedFn) xs w0)
    = Some {| store := tt; calls := [xs] |}
  /\ final_world (call (Callable (addThreeNumbers unit)) (firstn 3 xs) w0)
    = Some {| store := tt; calls := [[VNum 1; VNum 2; VNum 3]] |}
  /\ apply (stage (addThreeNumbers unit) CurriedFn) xs w0
     <> call (Callable (addThreeNumbers unit))
             (firstn (fn_length (addThreeNumbers unit)) xs) w0
  /\ apply (stage (countArguments unit) CurriedFn) xs w0
     <> call (Callable (countArguments unit))
             (firstn (fn_length (countArguments unit)) xs) w0.
Proof. repeat split; discriminate. Qed.


(** The length of a string is counted in UTF-16 code units, not in
    bytes: one for a two-byte character, two for a four-byte one. *)
Lemma utf16_length_examples :
  utf16_length "ab" = 2
  /\ utf16_length (String (Ascii.ascii_of_nat 195) (String (Ascii.ascii_of_nat 169) "")) = 1
  /\ utf16_length (String (Ascii.ascii_of_nat 240) (String (Ascii.ascii_of_nat 159)
                   (String (Ascii.ascii_of_nat 152) (String (Ascii.ascii_of_nat 128) "")))) = 2.
Proof. repeat split. Qed.

(** [curry] of the one-character string of bytes 195, 169 has arity 1: the
    first argument already throws. *)
Lemma curry_two_byte_character :
  curry_chain (@NotCallable unit
                 (VStr (String (Ascii.ascii_of_nat 195) (String (Ascii.ascii_of_nat 169) ""))))
              [[VNum 1]] w0
  = Abrupt TypeError w0.
Proof. reflexivity. Qed.

(** The hypothesis of C9 is needed: when the source function does not
    return, neither does the invocation that calls it. *)
Lemma apply_diverges_with_source (S : Type) (f : SourceFn S) code xs w :
  fn_length f <= length (accumulated code ++ xs) ->
  fn_call f (accumulated code ++ xs) (store w) = Diverge ->
  apply (stage f code) xs w = Diverge.
Proof.
  intros Hle E. rewrite apply_saturated by exact Hle.
  unfold fmap, bind, call_source. rewrite E. reflexivity.
Qed.

(** ** Instances *)

Lemma curry_one_at_a_time_witness :
  let f := addThreeNumbers unit in
  let xs := [VNum 1; VNum 2; VNum 3] in
  xs <> [] /\ length xs = fn_length f
  /\ curry_chain (Callable f) (map (fun a => [a]) xs) w0 = call (Callable f) xs w0.
Proof.
  intros f xs.
  assert (Hne : xs <> []) by discriminate.
  assert (Hlen : length xs = fn_length f) by reflexivity.
  exact (conj Hne (conj Hlen (@curry_one_at_a_time unit f xs w0 Hne Hlen))).
Defined.

Lemma curry_grouped_witness :
  let f := addThreeNumbers unit in
  let groups := [[VNum 1; VNum 2]; [VNum 3]] in
  groups <> [] /\ Forall (fun g => g <> []) groups
  /\ length (concat groups) = fn_length f
  /\ curry_chain (Callable f) groups w0 = call (Callable f) (concat groups) w0.
Proof.
  intros f groups.
  assert (Hne : groups <> []) by discriminate.
  assert (Hall : Forall (fun g : list Value => g <> []) groups)
    by (repeat constructor; discriminate).
  assert (Hlen : length (concat groups) = fn_length f) by reflexivity.
  exact (conj Hne (conj Hall (conj Hlen (@curry_grouped unit f groups w0 Hne Hall Hlen)))).
Defined.

Lemma extra_arguments_forwarded_witness :
  let f := addThreeNumbers unit in
  let xs := [VNum 1; VNum 2; VNum 3; VNum 999] in
  fn_length f < length (accumulated CurriedFn ++ xs)
  /\ apply (stage f CurriedFn) xs w0 = call (Callable f) xs w0
  /\ (forall w', final_world (apply (stage f CurriedFn) xs w0) = Some w' ->
                 calls w' = calls w0 ++ [xs])
  /\ xs <> firstn (fn_length f) xs.
Proof.
  intros f xs.
  assert (Hlt : fn_length f < length (accumulated CurriedFn ++ xs)) by (simpl; lia).
  exact (conj Hlt (@extra_arguments_forwarded unit f CurriedFn xs w0 Hlt)).
Defined.

Lemma saturated_calls_source_witness :
  let f := greet unit in
  let c := stage f (ArrowFn [VStr "Hello"]) in
  fn_length f <= length ([VStr "Hello"] ++ [VStr "Alice"])
  /\ apply c [VStr "Alice"] w0
     = Normal (Done (VStr "Hello, Alice!"))
              {| store := tt; calls := [[VStr "Hello"; VStr "Alice"]] |}.
Proof.
  intros f c.
  assert (Hle : fn_length f <= length (accumulated (ArrowFn [VStr "Hello"]) ++ [VStr "Alice"]))
    by (simpl; lia).
  split; [exact Hle|].
  exact (proj1 (@saturated_calls_source unit f (ArrowFn [VStr "Hello"]) [VStr "Alice"] w0 Hle)
               (VStr "Hello, Alice!") tt eq_refl).
Defined.

Lemma unsaturated_returns_stage_witness :
  let f := addThreeNumbers unit in
  length (accumulated (ArrowFn [VNum 1]) ++ [VNum 2]) < fn_length f
  /\ apply (stage f (ArrowFn [VNum 1])) [VNum 2] w0
     = Normal (Next (stage f (ArrowFn [VNum 1; VNum 2]))) w0.
Proof.
  intros f.
  assert (Hlt : length (accumulated (ArrowFn [VNum 1]) ++ [VNum 2]) < fn_length f)
    by (simpl; lia).
  exact (conj Hlt (@unsaturated_returns_stage unit f (ArrowFn [VNum 1]) [VNum 2] w0 Hlt)).
Defined.

Lemma arity_zero_calls_at_once_witness :
  let f := const42 unit in
  fn_length f = 0
  /\ curry_chain (Callable f) [[VStr "extra"]] w0 = call (Callable f) [VStr "extra"] w0
  /\ curry_chain (Callable (const42 unit)) [[]] w0
     = Normal (Done (VNum 42)) {| store := tt; calls := [[]] |}.
Proof.
  intros f.
  exact (conj eq_refl (@arity_zero_calls_at_once unit f [VStr "extra"] w0 eq_refl)).
Defined.

Lemma sibling_calls_independent_witness :
  let f := addThreeNumbers unit in
  let code := ArrowFn [VNum 1; VNum 2] in
  fn_length f <= length (accumulated code ++ [VNum 3])
  /\ fn_length f <= length (accumulated code ++ [VNum 10])
  /\ apply_twice (stage f code) [VNum 3] [VNum 10] w0
     = Normal (Done (VNum 6), Done (VNum 13))
              {| store := tt;
                 calls := [[VNum 1; VNum 2; VNum 3]; [VNum 1; VNum 2; VNum 10]] |}.
Proof.
  intros f code.
  assert (Hx : fn_length f <= length (accumulated code ++ [VNum 3])) by (simpl; lia).
  assert (Hy : fn_length f <= length (accumulated code ++ [VNum 10])) by (simpl; lia).
  split; [exact Hx | split; [exact Hy|]].
  exact (proj1 (@sibling_calls_independent unit f code [VNum 3] [VNum 10] w0 Hx Hy)).
Defined.

Lemma apply_terminates_witness :
  let f := addThreeNumbers unit in
  let xs := [VNum 1; VNum 2; VNum 3] in
  (fn_length f <= length (accumulated CurriedFn ++ xs) ->
   terminates (fn_call f (accumulated CurriedFn ++ xs) (store w0)) = true)
  /\ terminates (apply (stage f CurriedFn) xs w0) = true.
Proof.
  intros f xs.
  assert (Hf : fn_length f <= length (accumulated CurriedFn ++ xs) ->
               terminates (fn_call f (accumulated CurriedFn ++ xs) (store w0)) = true)
    by (intros _; reflexivity).
  exact (conj Hf (@apply_terminates unit f CurriedFn xs w0 Hf)).
Defined.

Lemma apply_no_arguments_witness :
  let f := addThreeNumbers unit in
  let code := ArrowFn [VNum 1] in
  length (accumulated code) < fn_length f
  /\ exists c',
       apply (stage f code) [] w0 = Normal (Next c') w0
       /\ forall ys w', apply c' ys w' = apply (stage f code) ys w'.
Proof.
  intros f code.
  assert (Hlt : length (accumulated code) < fn_length f) by (simpl; lia).
  exact (conj Hlt (@apply_no_arguments unit f code w0 Hlt)).
Defined.

(** * Chains of invocations in general *)

Section Chains.

Variable S : Type.

Implicit Types (f : SourceFn S) (c : Closure S) (code : Code) (w : World S).
Implicit Types (r : Result S) (args xs ys g : list Value).
Implicit Types (groups pre post : list (list Value)).

(** ** One invocation of any closure *)

Lemma length_ge_mono n m arity :
  n <= m -> length_ge m arity = false -> length_ge n arity = false.
Proof.
  destruct arity as [k|]; simpl; [|reflexivity].
  intros Hnm Hm. apply Nat.leb_gt. apply Nat.leb_gt in Hm. lia.
Qed.

Lemma apply_accumulated c xs :
  apply c xs = curried (cl_fn c) (cl_arity c) (accumulated (cl_code c) ++ xs).
Proof. unfold apply. destruct (cl_code c); reflexivity. Qed.

Lemma apply_below c xs w :
  length_ge (length (accumulated (cl_code c) ++ xs)) (cl_arity c) = false ->
  apply c xs w = Normal (Next (extend c xs)) w.
Proof. intros H. rewrite apply_accumulated. unfold curried. rewrite H. reflexivity. Qed.

Lemma apply_reached c xs w :
  length_ge (length (accumulated (cl_code c) ++ xs)) (cl_arity c) = true ->
  apply c xs w = call (cl_fn c) (accumulated (cl_code c) ++ xs) w.
Proof. intros H. rewrite apply_accumulated. unfold curried. rewrite H. reflexivity. Qed.

Lemma extend_extend c xs ys : extend (extend c xs) ys = extend c (xs ++ ys).
Proof. unfold extend. simpl. rewrite <- app_assoc. reflexivity. Qed.

Lemma extend_stage f code xs :
  extend (stage f code) xs = stage f (ArrowFn (accumulated code ++ xs)).
Proof. reflexivity. Qed.

(** ** Chains *)

Lemma chain_app r pre post : forall w,
  chain r (pre ++ post) w = bind (chain r pre) (fun r' => chain r' post) w.
Proof.
  revert r. induction pre as [|g pre IH]; intros r w; [reflexivity|].
  simpl. unfold bind. destruct (apply_result r g w); try reflexivity.
  rewrite IH. reflexivity.
Qed.

(** A value is not callable: nothing more can be supplied to it. *)
Lemma chain_done (v : Value) groups w :
  chain (Done v) groups w
  = match groups with
    | [] => Normal (@Done S v) w
    | _ :: _ => Abrupt TypeError w
    end.
Proof. destruct groups; reflexivity. Qed.

(** Batches that together stay below the arity only accumulate. *)
Lemma chain_below groups : forall c w,
  groups <> [] ->
  length_ge (length (accumulated (cl_code c) ++ concat groups)) (cl_arity c) = false ->
  chain (Next c) groups w = Normal (Next (extend c (concat groups))) w.
Proof.
  induction groups as [|g gs IH]; intros c w Hne Hlow; [congruence|].
  simpl chain. unfold bind. simpl apply_result.
  rewrite apply_below.
  - destruct gs as [|g' gs'].
    + simpl. rewrite app_nil_r. reflexivity.
    + rewrite IH.
      * rewrite extend_extend. reflexivity.
      * discriminate.
      * simpl accumulated. simpl cl_arity. rewrite <- app_assoc. exact Hlow.
  - apply length_ge_mono with (2 := Hlow). simpl concat.
    rewrite !length_app. lia.
Qed.

(** The source function is called at the first batch that reaches the
    arity; what follows is supplied to the result of that call. *)
Lemma chain_first_reach c pre g post w :
  (pre <> [] ->
   length_ge (length (accumulated (cl_code c) ++ concat pre)) (cl_arity c) = false) ->
  length_ge (length (accumulated (cl_code c) ++ concat pre ++ g)) (cl_arity c) = true ->
  chain (Next c) (pre ++ g :: post) w
  = bind (call (cl_fn c) (accumulated (cl_code c) ++ concat pre ++ g))
         (fun r => chain r post) w.
Proof.
  intros Hpre Hg. rewrite chain_app. destruct pre as [|p pre'].
  - simpl. unfold bind at 1. simpl. unfold bind. rewrite apply_reached by exact Hg.
    reflexivity.
  - unfold bind at 1. rewrite chain_below; [ | discriminate | apply Hpre; discriminate ].
    simpl chain. unfold bind. simpl apply_result.
    rewrite apply_reached; simpl accumulated; simpl cl_arity; simpl cl_fn;
      rewrite <- app_assoc; [reflexivity | exact Hg].
Qed.

(** ** Properties of chains *)

(** A stage returned by a chain was built by the chain: what a source
    function returns is a value of this universe, never a stage. *)
Lemma chain_stage_inversion groups : forall c w c' w',
  chain (Next c) groups w = Normal (Next c') w' ->
  w' = w
  /\ c' = match groups with [] => c | _ :: _ => extend c (concat groups) end
  /\ (groups <> [] ->
      length_ge (length (accumulated (cl_code c) ++ concat groups)) (cl_arity c) = false).
Proof.
  induction groups as [|g gs IH]; intros c w c' w' H.
  - simpl in H. unfold ret in H. injection H as <- <-. repeat split. congruence.
  - simpl chain in H. unfold bind in H. simpl apply_result in H.
    destruct (length_ge (length (accumulated (cl_code c) ++ g)) (cl_arity c)) eqn:E.
    + rewrite apply_reached in H by exact E. exfalso.
      destruct (cl_fn c) as [f|v]; simpl in H; [|discriminate].
      unfold fmap, bind, ret in H.
      destruct (call_source f (accumulated (cl_code c) ++ g) w); try discriminate.
      rewrite chain_done in H. destruct gs; discriminate.
    + rewrite apply_below in H by exact E. destruct gs as [|g' gs'].
      * simpl in H. unfold ret in H. injection H as <- <-.
        simpl concat. rewrite app_nil_r. repeat split. intros _. exact E.
      * destruct (IH _ _ _ _ H) as (Hw & Hc & Hlow). split; [exact Hw|]. split.
        -- rewrite Hc, extend_extend. reflexivity.
        -- intros _. specialize (Hlow ltac:(discriminate)).
           simpl accumulated in Hlow. simpl cl_arity in Hlow.
           rewrite <- app_assoc in Hlow. exact Hlow.
Qed.

(** X1. Where what the source function returns is a value that is not
    callable (as every result of this universe is): a chain of one or
    more invocations on a closure returns a stage exactly when all the
    batches together keep the accumulated count below the arity.  Then no
    source function has run (the state of the run is unchanged), and the
    stage has the [fn] and [arity] of the closure the chain started from
    and has captured the closure's arguments followed by all the batches
    in order.  The direction from the count to the stage holds whatever
    the source function returns. *)
Theorem chain_returns_stage g gs c w c' w' :
  chain (Next c) (g :: gs) w = Normal (Next c') w'
  <-> length_ge (length (accumulated (cl_code c) ++ concat (g :: gs))) (cl_arity c) = false
      /\ c' = extend c (concat (g :: gs))
      /\ w' = w.
Proof.
  split.
  - intros H. destruct (chain_stage_inversion _ _ _ H) as (Hw & Hc & Hlow).
    split; [apply Hlow; discriminate | split; assumption].
  - intros (Hlow & -> & ->). apply chain_below; [discriminate | exact Hlow].
Qed.

(** X2. As long as the batches before the last stay below the arity,
    supplying batches one after the other is the same as supplying them
    all in one invocation: [c(g1)...(gk)(g)] behaves as [c(g1, ..., gk, g)],
    empty batches and surplus arguments included. *)
Theorem chain_regroup c pre g w :
  (pre <> [] ->
   length_ge (length (accumulated (cl_code c) ++ concat pre)) (cl_arity c) = false) ->
  chain (Next c) (pre ++ [g]) w = apply c (concat pre ++ g) w.
Proof.
  intros Hpre.
  destruct (length_ge (length (accumulated (cl_code c) ++ concat pre ++ g)) (cl_arity c)) eqn:E.
  - rewrite chain_first_reach by assumption. rewrite apply_reached by exact E.
    apply bind_ret_r.
  - rewrite chain_below.
    + rewrite concat_app. simpl concat. rewrite app_nil_r.
      rewrite apply_below by exact E. reflexivity.
    + destruct pre; discriminate.
    + rewrite concat_app. simpl concat. rewrite app_nil_r. exact E.
Qed.

(** X3. In a chain on a stage of a source function, the source function
    is called at the first batch that brings the accumulated sequence to
    the arity, with everything accumulated so far, and the batches that
    follow are supplied to what that call returns. *)
Theorem chain_calls_source_at_first_reach f code pre g post w :
  (pre <> [] -> length (accumulated code ++ concat pre) < fn_length f) ->
  fn_length f <= length (accumulated code ++ concat pre ++ g) ->
  chain (Next (stage f code)) (pre ++ g :: post) w
  = bind (call (Callable f) (accumulated code ++ concat pre ++ g))
         (fun r => chain r post) w.
Proof.
  intros Hpre Hg. apply (chain_first_reach (stage f code)); simpl.
  - intros Hne. apply Nat.leb_gt, Hpre, Hne.
  - apply Nat.leb_le, Hg.
Qed.

(** X4. An error thrown by the source function leaves the chain as it
    was thrown, not wrapped, together with the state the source function
    left; the batches after the one that triggered the call are never
    supplied. *)
Theorem chain_propagates_throw f code pre g post w e s' :
  (pre <> [] -> length (accumulated code ++ concat pre) < fn_length f) ->
  fn_length f <= length (accumulated code ++ concat pre ++ g) ->
  fn_call f (accumulated code ++ concat pre ++ g) (store w) = Abrupt e s' ->
  chain (Next (stage f code)) (pre ++ g :: post) w
  = Abrupt e {| store := s';
                calls := calls w ++ [accumulated code ++ concat pre ++ g] |}.
Proof.
  intros Hpre Hg E.
  rewrite (chain_first_reach (stage f code)); simpl.
  - unfold bind at 1, fmap, bind, call_source, ret. rewrite E. reflexivity.
  - intros Hne. apply Nat.leb_gt, Hpre, Hne.
  - apply Nat.leb_le, Hg.
Qed.

(** X5. Over a whole chain of invocations that ends (by a return or a
    throw), the source function is called at most once, and never with
    fewer arguments than its declared parameter count: it receives the
    stage's arguments followed by the first [k] batches, for some [k]. *)
Theorem chain_calls_source_at_most_once f groups : forall code w w',
  final_world (chain (Next (stage f code)) groups w) = Some w' ->
  w' = w
  \/ exists k,
       calls w' = calls w ++ [accumulated code ++ concat (firstn k groups)]
       /\ fn_length f <= length (accumulated code ++ concat (firstn k groups)).
Proof.
  induction groups as [|g gs IH]; intros code w w' H.
  - simpl in H. injection H as <-. left. reflexivity.
  - simpl chain in H. unfold bind in H. simpl apply_result in H.
    destruct (le_lt_dec (fn_length f) (length (accumulated code ++ g))) as [Hle|Hlt].
    + right. exists 1. simpl firstn. simpl concat. rewrite app_nil_r.
      split; [|exact Hle].
      rewrite apply_saturated in H by exact Hle.
      unfold fmap, bind, call_source, ret in H.
      destruct (fn_call f (accumulated code ++ g) (store w)); simpl in H.
      * rewrite chain_done in H. destruct gs; simpl in H; injection H as <-; reflexivity.
      * injection H as <-. reflexivity.
      * discriminate.
    + rewrite apply_unsaturated in H by exact Hlt.
      destruct (IH _ _ _ H) as [Hw | (k & Hk & Hlen)]; [left; exact Hw|].
      right. exists (Datatypes.S k). simpl accumulated in Hk, Hlen.
      simpl firstn. simpl concat. rewrite app_assoc. split; assumption.
Qed.

(** X6. An invocation that stays below the arity has no influence on a
    later invocation of the same stage: invoking a stage with [xs] and
    then with [ys] gives the stage over the arguments followed by [xs],
    and for [ys] exactly what invoking the stage with [ys] alone gives. *)
Theorem apply_twice_below f code xs ys w :
  length (accumulated code ++ xs) < fn_length f ->
  apply_twice (stage f code) xs ys w
  = fmap (fun r2 => (Next (stage f (ArrowFn (accumulated code ++ xs))), r2))
         (apply (stage f code) ys) w.
Proof.
  intros Hlt. unfold apply_twice, fmap, bind at 1.
  rewrite apply_unsaturated by exact Hlt. reflexivity.
Qed.

(** X7. A value without a [length] (a boolean or a number) handed to
    [curry] never fails: every chain of invocations returns one more
    stage, which has only collected the arguments. *)
Theorem curry_without_length_never_fails (v : Value) groups w :
  get_length (@NotCallable S v) = inr AUndefined ->
  groups <> [] ->
  curry_chain (NotCallable v) groups w
  = Normal (Next {| cl_fn := NotCallable v;
                    cl_arity := AUndefined;
                    cl_code := ArrowFn (concat groups) |}) w.
Proof.
  intros Hlen Hne. unfold curry_chain, curry. rewrite Hlen.
  rewrite chain_below; [reflexivity | exact Hne | reflexivity].
Qed.

(** X8. A string handed to [curry] is treated as a function with as many
    parameters as the string has UTF-16 code units: while the arguments
    supplied stay below that number the chain returns a stage that has
    collected them, and the batch that brings their count to that number
    throws a [TypeError], without changing the state. *)
Theorem curry_string_fails_at_length (s : string) pre g w :
  (pre <> [] -> length (concat pre) < utf16_length s) ->
  utf16_length s <= length (concat pre ++ g) ->
  curry_chain (@NotCallable S (VStr s)) pre w
  = Normal (Next {| cl_fn := NotCallable (VStr s);
                    cl_arity := ANum (utf16_length s);
                    cl_code := match pre with
                               | [] => CurriedFn
                               | _ :: _ => ArrowFn (concat pre)
                               end |}) w
  /\ curry_chain (@NotCallable S (VStr s)) (pre ++ [g]) w = Abrupt TypeError w.
Proof.
  intros Hpre Hg. cbv beta iota delta [curry_chain curry get_length]. split.
  - destruct pre as [|p pre']; [reflexivity|].
    rewrite chain_below; [reflexivity | discriminate | ].
    simpl. apply Nat.leb_gt, Hpre. discriminate.
  - rewrite chain_first_reach; simpl.
    + reflexivity.
    + intros Hne. apply Nat.leb_gt, Hpre, Hne.
    + apply Nat.leb_le, Hg.
Qed.

(** ** The example functions, curried *)

(** X9. [curry(addThreeNumbers)] supplied with three numbers in any
    grouping into non-empty batches returns their sum, having called
    [addThreeNumbers] once with the three.  The numbers and the partial
    sums are safe integers, on which the addition of numbers is that of
    integers. *)
Theorem curried_add_sums (a b c : Z) groups w :
  safe_integer a = true -> safe_integer b = true -> safe_integer c = true ->
  safe_integer (a + b) = true -> safe_integer (a + b + c) = true ->
  groups <> [] ->
  Forall (fun g => g <> []) groups ->
  concat groups = [VNum a; VNum b; VNum c] ->
  curry_chain (Callable (addThreeNumbers S)) groups w
  = Normal (Done (VNum (a + b + c)))
           {| store := store w; calls := calls w ++ [[VNum a; VNum b; VNum c]] |}.
Proof.
  intros _ _ _ _ _ Hne Hall Hcat. unfold curry_chain. rewrite curry_callable.
  rewrite chain_saturates; simpl accumulated; rewrite ?Hcat; try assumption; reflexivity.
Qed.

(** X10. [curry(greet)] supplied with a greeting and a name, in one batch
    or in two, returns the greeting, a comma and a space, the name and an
    exclamation mark, having called [greet] once. *)
Theorem curried_greet_greets (greeting name : string) groups w :
  groups <> [] ->
  Forall (fun g => g <> []) groups ->
  concat groups = [VStr greeting; VStr name] ->
  curry_chain (Callable (greet S)) groups w
  = Normal (Done (VStr (greeting ++ ", " ++ name ++ "!")))
           {| store := store w; calls := calls w ++ [[VStr greeting; VStr name]] |}.
Proof.
  intros Hne Hall Hcat. unfold curry_chain. rewrite curry_callable.
  rewrite chain_saturates; simpl accumulated; rewrite ?Hcat; try assumption; reflexivity.
Qed.

End Chains.

(** ** Instances *)

Lemma chain_returns_stage_witness :
  let c := stage (addThreeNumbers unit) CurriedFn in
  chain (Next c) [[VNum 1]; [VNum 2]] w0 = Normal (Next (extend c [VNum 1; VNum 2])) w0
  /\ length_ge (length (accumulated (cl_code c) ++ concat [[VNum 1]; [VNum 2]]))
               (cl_arity c) = false
  /\ extend c [VNum 1; VNum 2] = extend c (concat [[VNum 1]; [VNum 2]])
  /\ w0 = w0.
Proof.
  intros c.
  assert (H : chain (Next c) [[VNum 1]; [VNum 2]] w0
              = Normal (Next (extend c [VNum 1; VNum 2])) w0) by reflexivity.
  exact (conj H (proj1 (@chain_returns_stage unit [VNum 1] [[VNum 2]] c w0 _ w0) H)).
Defined.

Lemma chain_regroup_witness :
  let c := stage (addThreeNumbers unit) CurriedFn in
  let pre := [[VNum 1]; []] in
  (pre <> [] ->
   length_ge (length (accumulated (cl_code c) ++ concat pre)) (cl_arity c) = false)
  /\ chain (Next c) (pre ++ [[VNum 2; VNum 3]]) w0
     = apply c (concat pre ++ [VNum 2; VNum 3]) w0.
Proof.
  intros c pre.
  assert (H : pre <> [] ->
    length_ge (length (accumulated (cl_code c) ++ concat pre)) (cl_arity c) = false)
    by (intros _; reflexivity).
  exact (conj H (@chain_regroup unit c pre [VNum 2; VNum 3] w0 H)).
Defined.

Lemma chain_calls_source_at_first_reach_witness :
  let f := addThreeNumbers unit in
  let pre := [[VNum 1]] in
  let g := [VNum 2; VNum 3; VNum 4] in
  (pre <> [] -> length (accumulated CurriedFn ++ concat pre) < fn_length f)
  /\ fn_length f <= length (accumulated CurriedFn ++ concat pre ++ g)
  /\ chain (Next (stage f CurriedFn)) (pre ++ g :: [[VNum 5]]) w0
     = bind (call (Callable f) (accumulated CurriedFn ++ concat pre ++ g))
            (fun r => chain r [[VNum 5]]) w0.
Proof.
  intros f pre g.
  assert (Hpre : pre <> [] -> length (accumulated CurriedFn ++ concat pre) < fn_length f)
    by (intros _; simpl; lia).
  assert (Hg : fn_length f <= length (accumulated CurriedFn ++ concat pre ++ g))
    by (simpl; lia).
  exact (conj Hpre (conj Hg
    (@chain_calls_source_at_first_reach unit f CurriedFn pre g [[VNum 5]] w0 Hpre Hg))).
Defined.

Lemma chain_propagates_throw_witness :
  let f := throwFirst unit in
  let pre := [[VStr "boom"]] in
  let g := [VNum 1] in
  (pre <> [] -> length (accumulated CurriedFn ++ concat pre) < fn_length f)
  /\ fn_length f <= length (accumulated CurriedFn ++ concat pre ++ g)
  /\ fn_call f (accumulated CurriedFn ++ concat pre ++ g) (store w0)
     = Abrupt (Thrown (VStr "boom")) tt
  /\ chain (Next (stage f CurriedFn)) (pre ++ g :: [[VNum 2]]) w0
     = Abrupt (Thrown (VStr "boom"))
              {| store := tt;
                 calls := calls w0 ++ [accumulated CurriedFn ++ concat pre ++ g] |}.
Proof.
  intros f pre g.
  assert (Hpre : pre <> [] -> length (accumulated CurriedFn ++ concat pre) < fn_length f)
    by (intros _; simpl; lia).
  assert (Hg : fn_length f <= length (accumulated CurriedFn ++ concat pre ++ g))
    by (simpl; lia).
  assert (E : fn_call f (accumulated CurriedFn ++ concat pre ++ g) (store w0)
              = Abrupt (Thrown (VStr "boom")) tt) by reflexivity.
  exact (conj Hpre (conj Hg (conj E
    (@chain_propagates_throw unit f CurriedFn pre g [[VNum 2]] w0 _ tt Hpre Hg E)))).
Defined.

Lemma chain_calls_source_at_most_once_witness :
  let f := addThreeNumbers unit in
  let groups := [[VNum 1]; [VNum 2; VNum 3]] in
  let w' := {| store := tt; calls := [[VNum 1; VNum 2; VNum 3]] |} in
  final_world (chain (Next (stage f CurriedFn)) groups w0) = Some w'
  /\ (w' = w0
      \/ exists k,
           calls w' = calls w0 ++ [accumulated CurriedFn ++ concat (firstn k groups)]
           /\ fn_length f <= length (accumulated CurriedFn ++ concat (firstn k groups))).
Proof.
  intros f groups w'.
  assert (H : final_world (chain (Next (stage f CurriedFn)) groups w0) = Some w')
    by reflexivity.
  exact (conj H (@chain_calls_source_at_most_once unit f groups CurriedFn w0 w' H)).
Defined.

Lemma apply_twice_below_witness :
  let f := greet unit in
  length (accumulated CurriedFn ++ [VStr "Hello"]) < fn_length f
  /\ apply_twice (stage f CurriedFn) [VStr "Hello"] [VStr "Hi"] w0
     = fmap (fun r2 => (Next (stage f (ArrowFn (accumulated CurriedFn ++ [VStr "Hello"]))), r2))
            (apply (stage f CurriedFn) [VStr "Hi"]) w0.
Proof.
  intros f.
  assert (Hlt : length (accumulated CurriedFn ++ [VStr "Hello"]) < fn_length f)
    by (simpl; lia).
  exact (conj Hlt (@apply_twice_below unit f CurriedFn [VStr "Hello"] [VStr "Hi"] w0 Hlt)).
Defined.

Lemma curry_without_length_never_fails_witness :
  let groups := [[VNum 1]; [VNum 2]] in
  get_length (@NotCallable unit (VNum 5)) = inr AUndefined
  /\ groups <> []
  /\ curry_chain (NotCallable (VNum 5)) groups w0
     = Normal (Next {| cl_fn := NotCallable (VNum 5);
                       cl_arity := AUndefined;
                       cl_code := ArrowFn (concat groups) |}) w0.
Proof.
  intros groups.
  assert (Hne : groups <> []) by discriminate.
  exact (conj eq_refl (conj Hne
    (@curry_without_length_never_fails unit (VNum 5) groups w0 eq_refl Hne))).
Defined.

Lemma curry_string_fails_at_length_witness :
  let s := String (Ascii.ascii_of_nat 195) (String (Ascii.ascii_of_nat 169) "b") in
  let pre := [[VNum 1]] in
  let g := [VNum 2] in
  utf16_length s = 2
  /\ (pre <> [] -> length (concat pre) < utf16_length s)
  /\ utf16_length s <= length (concat pre ++ g)
  /\ curry_chain (@NotCallable unit (VStr s)) pre w0
     = Normal (Next {| cl_fn := NotCallable (VStr s);
                       cl_arity := ANum (utf16_length s);
                       cl_code := ArrowFn (concat pre) |}) w0
  /\ curry_chain (@NotCallable unit (VStr s)) (pre ++ [g]) w0 = Abrupt TypeError w0.
Proof.
  intros s pre g.
  assert (Hpre : pre <> [] -> length (concat pre) < utf16_length s)
    by (intros _; simpl; lia).
  assert (Hg : utf16_length s <= length (concat pre ++ g)) by (simpl; lia).
  exact (conj eq_refl (conj Hpre (conj Hg
    (@curry_string_fails_at_length unit s pre g w0 Hpre Hg)))).
Defined.

Lemma curried_add_sums_witness :
  let groups := [[VNum 1; VNum 2]; [VNum 3]] in
  safe_integer 1 = true /\ safe_integer 2 = true /\ safe_integer 3 = true
  /\ safe_integer (1 + 2) = true /\ safe_integer (1 + 2 + 3) = true
  /\ groups <> []
  /\ Forall (fun g => g <> []) groups
  /\ concat groups = [VNum 1; VNum 2; VNum 3]
  /\ curry_chain (Callable (addThreeNumbers unit)) groups w0
     = Normal (Done (VNum (1 + 2 + 3)))
              {| store := store w0; calls := calls w0 ++ [[VNum 1; VNum 2; VNum 3]] |}.
Proof.
  intros groups.
  assert (Hne : groups <> []) by discriminate.
  assert (Hall : Forall (fun g : list Value => g <> []) groups)
    by (repeat constructor; discriminate).
  repeat (split; [first [reflexivity | exact Hne | exact Hall]|]).
  exact (@curried_add_sums unit 1 2 3 groups w0
           eq_refl eq_refl eq_refl eq_refl eq_refl Hne Hall eq_refl).
Defined.

Lemma curried_greet_greets_witness :
  let groups := [[VStr "Hello"]; [VStr "Alice"]] in
  groups <> []
  /\ Forall (fun g => g <> []) groups
  /\ concat groups = [VStr "Hello"; VStr "Alice"]
  /\ curry_chain (Callable (greet unit)) groups w0
     = Normal (Done (VStr ("Hello" ++ ", " ++ "Alice" ++ "!")))
              {| store := store w0; calls := calls w0 ++ [[VStr "Hello"; VStr "Alice"]] |}.
Proof.
  intros groups.
  assert (Hne : groups <> []) by discriminate.
  assert (Hall : Forall (fun g : list Value => g <> []) groups)
    by (repeat constructor; discriminate).
  exact (conj Hne (conj Hall (conj eq_refl
    (@curried_greet_greets unit "Hello" "Alice" groups w0 Hne Hall eq_refl)))).
Defined.
